(** * STL_Ranges_00: the filter | transform | reverse pipeline and the
      filtered [for_each] of [main.cpp], as a shallow embedding.

    The program works on one [std::vector<int>] per function and walks it
    through standard range adaptors.  The embedding keeps the operational
    shape of those adaptors: a view owns no elements, an iterator is an
    offset into the vector the view refers to, and every adaptor defines
    [begin], [end], [++], [--] and [*] in terms of the adaptor below it.
    The lambdas of [main.cpp] are plain functions on [int]. *)

From Stdlib Require Import Ascii.
From Stdlib Require DecimalString.
From stdpp Require Import base numbers list strings.

Local Open Scope Z_scope.

(** ** [int] *)

Definition int_min : Z := - 2 ^ 31.
Definition int_max : Z := 2 ^ 31 - 1.

Definition int_range (z : Z) : Prop := int_min ≤ z ≤ int_max.

(** Two's-complement wrap-around of a mathematical result into [int].
    C++ gives signed overflow no defined result; the wrap-around is what
    the machine computes, and [add_one_even] and [increment_even] below
    show that neither lambda overflows on the even values it is given. *)
Definition wrap (z : Z) : Z := (z + 2 ^ 31) `mod` 2 ^ 32 - 2 ^ 31.

(** ** The lambdas of [main.cpp] *)

(** [auto is_even = [](auto const n) { return n % 2 == 0; };]
    [%] on [int] truncates towards zero: it is [Z.rem], not [Z.modulo]. *)
Definition is_even (n : Z) : bool := Z.rem n 2 =? 0.

(** [const auto even = [](int i) { return 0 == i % 2; };] *)
Definition even (i : Z) : bool := 0 =? Z.rem i 2.

(** [[](auto n) { return ++n; }]: [n] is a by-value parameter, the
    increment acts on that copy and the copy is returned. *)
Definition increment (n : Z) : Z :=
  let n := wrap (n + 1) in n.

(** [[](int & i) { i += 1; }]: the new content of the referenced element as
    a function of its old content. *)
Definition add_one (i : Z) : Z := wrap (i + 1).

(** ** Machine state *)

(** Calls of the user-supplied callables, with the offset of the element
    they were given and the value that element held at the call. *)
Inductive event : Type :=
  | CallPred (i : nat) (x : Z)   (* the filter predicate *)
  | CallFun (i : nat) (x : Z)    (* the function of [transform] *)
  | CallMut (i : nat) (x : Z).   (* the function of [for_each] *)

Record machine : Type := Machine {
  elems : list Z;               (* the contents of the vector *)
  cached_begin : option nat;    (* [filter_view]'s cached [begin()] *)
  trace : list event;           (* calls so far, oldest first *)
}.

(** A vector freshly initialised, no view has been iterated yet. *)
Definition init (l : list Z) : machine :=
  {| elems := l; cached_begin := None; trace := [] |}.

Inductive result (A : Type) : Type :=
  | Ok (a : A)
  | Undefined     (* undefined behaviour: an iterator left its range *)
  | OutOfFuel.    (* a loop bound of the embedding was too small *)
Arguments Ok {A} a.
Arguments Undefined {A}.
Arguments OutOfFuel {A}.

Definition M (A : Type) : Type := machine → result (A * machine).

#[export] Instance M_ret : MRet M := λ A a s, Ok (a, s).

#[export] Instance M_bind : MBind M := λ A B f m s,
  match m s with
  | Ok (a, s') => f a s'
  | Undefined => Undefined
  | OutOfFuel => OutOfFuel
  end.

Definition undefined {A} : M A := λ _, Undefined.
Definition out_of_fuel {A} : M A := λ _, OutOfFuel.

Definition get_elems : M (list Z) := λ s, Ok (elems s, s).

Definition put_elems (l : list Z) : M unit := λ s,
  Ok ((), {| elems := l; cached_begin := cached_begin s; trace := trace s |}).

Definition get_cache : M (option nat) := λ s, Ok (cached_begin s, s).

Definition put_cache (c : option nat) : M unit := λ s,
  Ok ((), {| elems := elems s; cached_begin := c; trace := trace s |}).

Definition log (e : event) : M unit := λ s,
  Ok ((), {| elems := elems s; cached_begin := cached_begin s;
             trace := trace s ++ [e] |}).

(** ** Ranges

    Iterators of every range below are offsets into the underlying vector,
    so one iterator type serves all of them. *)

Class Range (R : Type) : Type := {
  begin_ : R → M nat;          (* ranges::begin(r) *)
  end_ : R → M nat;            (* ranges::end(r) *)
  next : R → nat → M nat;      (* ++it *)
  deref : R → nat → M Z;       (* the value of *it *)
}.

Class BidirectionalRange (R : Type) `{Range R} : Type := {
  prev : R → nat → M nat;      (* --it *)
}.

(** Ranges whose [*it] is an [int &] into the vector. *)
Class MutableRange (R : Type) `{Range R} : Type := {
  assign : R → nat → Z → M unit;   (* *it = x *)
}.

(** *** The vector itself (an lvalue vector in a pipeline is wrapped in a
    [ref_view], which forwards everything to the vector) *)

Inductive ref_view : Type := TheVector.

#[export] Instance vector_range : Range ref_view := {|
  begin_ _ := mret 0%nat;
  end_ _ := l ← get_elems; mret (length l);
  next _ it := mret (S it);
  deref _ it :=
    l ← get_elems;
    match l !! it with
    | Some x => mret x
    | None => undefined
    end;
|}.

#[export] Instance vector_bidirectional : BidirectionalRange ref_view := {|
  prev _ it :=
    match it with
    | O => undefined
    | S it' => mret it'
    end;
|}.

#[export] Instance vector_mutable : MutableRange ref_view := {|
  assign _ it x :=
    l ← get_elems;
    match l !! it with
    | Some _ => put_elems (<[it := x]> l)
    | None => undefined
    end;
|}.

(** *** [std::ranges::find_if] *)

Fixpoint find_if_loop {R} `{Range R} (n : nat) (r : R) (first last : nat)
    (pred : Z → bool) : M nat :=
  if (first =? last)%nat then mret first
  else match n with
       | O => out_of_fuel
       | S n' =>
           x ← deref r first;
           log (CallPred first x);;
           if pred x then mret first
           else first' ← next r first; find_if_loop n' r first' last pred
       end.

Definition find_if {R} `{Range R} (r : R) (first last : nat)
    (pred : Z → bool) : M nat :=
  find_if_loop (last - first) r first last pred.

(** *** [std::views::filter] *)

Record filter_view (V : Type) : Type := FilterView {
  filter_base : V;
  filter_pred : Z → bool;
}.
Arguments FilterView {V} _ _.
Arguments filter_base {V} _.
Arguments filter_pred {V} _.

(** [filter_view::iterator::operator--]:
    [do --current; while (!pred( *current ));] *)
Fixpoint filter_prev_loop {V} `{BidirectionalRange V} (n : nat) (b : V)
    (pred : Z → bool) (it : nat) : M nat :=
  match n with
  | O => out_of_fuel
  | S n' =>
      it' ← prev b it;
      x ← deref b it';
      log (CallPred it' x);;
      if pred x then mret it' else filter_prev_loop n' b pred it'
  end.

#[export] Instance filter_range {V} `{Range V} : Range (filter_view V) := {|
  begin_ v :=
    c ← get_cache;
    match c with
    | Some it => mret it
    | None =>
        first ← begin_ (filter_base v);
        last ← end_ (filter_base v);
        it ← find_if (filter_base v) first last (filter_pred v);
        put_cache (Some it);;
        mret it
    end;
  end_ v := end_ (filter_base v);
  next v it :=
    it' ← next (filter_base v) it;
    last ← end_ (filter_base v);
    find_if (filter_base v) it' last (filter_pred v);
  deref v it := deref (filter_base v) it;
|}.

#[export] Instance filter_bidirectional {V} `{BidirectionalRange V} :
    BidirectionalRange (filter_view V) := {|
  prev v it := filter_prev_loop (S it) (filter_base v) (filter_pred v) it;
|}.

#[export] Instance filter_mutable {V} `{MutableRange V} :
    MutableRange (filter_view V) := {|
  assign v it x := assign (filter_base v) it x;
|}.

(** *** [std::views::transform] *)

Record transform_view (V : Type) : Type := TransformView {
  transform_base : V;
  transform_fun : Z → Z;
}.
Arguments TransformView {V} _ _.
Arguments transform_base {V} _.
Arguments transform_fun {V} _.

#[export] Instance transform_range {V} `{Range V} :
    Range (transform_view V) := {|
  begin_ v := begin_ (transform_base v);
  end_ v := end_ (transform_base v);
  next v it := next (transform_base v) it;
  deref v it :=
    x ← deref (transform_base v) it;
    log (CallFun it x);;
    mret (transform_fun v x);
|}.

#[export] Instance transform_bidirectional {V} `{BidirectionalRange V} :
    BidirectionalRange (transform_view V) := {|
  prev v it := prev (transform_base v) it;
|}.

(** *** [std::views::reverse]

    A reverse iterator is represented by the base iterator it wraps
    ([current]); it designates the element before [current]. *)

Record reverse_view (V : Type) : Type := ReverseView {
  reverse_base : V;
}.
Arguments ReverseView {V} _.
Arguments reverse_base {V} _.

#[export] Instance reverse_range {V} `{BidirectionalRange V} :
    Range (reverse_view V) := {|
  begin_ v := end_ (reverse_base v);
  end_ v := begin_ (reverse_base v);
  next v it := prev (reverse_base v) it;
  deref v it := tmp ← prev (reverse_base v) it; deref (reverse_base v) tmp;
|}.

(** ** [show] and [std::ranges::for_each] *)

(** Number of steps between two offsets, whichever way the range runs. *)
Definition distance (a b : nat) : nat := ((a - b) + (b - a))%nat.

(** The range-based [for] of [show]; the values streamed to [std::cout],
    in order (the two-column formatting is left out). *)
Fixpoint show_loop {R} `{Range R} (n : nat) (container : R)
    (it last : nat) : M (list Z) :=
  if (it =? last)%nat then mret []
  else match n with
       | O => out_of_fuel
       | S n' =>
           v ← deref container it;
           it' ← next container it;
           rest ← show_loop n' container it' last;
           mret (v :: rest)
       end.

Definition show {R} `{Range R} (container : R) : M (list Z) :=
  it ← begin_ container;
  last ← end_ container;
  show_loop (distance it last) container it last.

Fixpoint for_each_loop {R} `{MutableRange R} (n : nat) (r : R)
    (first last : nat) (f : Z → Z) : M unit :=
  if (first =? last)%nat then mret ()
  else match n with
       | O => out_of_fuel
       | S n' =>
           x ← deref r first;
           log (CallMut first x);;
           assign r first (f x);;
           first' ← next r first;
           for_each_loop n' r first' last f
       end.

Definition for_each {R} `{MutableRange R} (r : R) (f : Z → Z) : M unit :=
  first ← begin_ r;
  last ← end_ r;
  for_each_loop (last - first) r first last f.

(** ** The two functions of [main.cpp]

    Each function has its own vector: [numbers] in [main], [vec] in
    [use_for_each]. *)

(** [numbers | filter(pred) | transform(f) | reverse] *)
Definition pipeline (pred : Z → bool) (f : Z → Z) :
    reverse_view (transform_view (filter_view ref_view)) :=
  ReverseView (TransformView (FilterView TheVector pred) f).

(** Building the pipeline creates the view objects; the filter view starts
    without a cached [begin()].  Nothing of the vector is read. *)
Definition build_pipeline (pred : Z → bool) (f : Z → Z) :
    M (reverse_view (transform_view (filter_view ref_view))) :=
  put_cache None;;
  mret (pipeline pred f).

(** A function body run with its own local vector: the caller's vector
    and view are out of reach until the body returns, and the local
    vector is gone afterwards. *)
Definition with_local {A} (l : list Z) (body : M A) : M A :=
  outer ← get_elems;
  outer_cache ← get_cache;
  put_elems l;;
  put_cache None;;
  r ← body;
  put_elems outer;;
  put_cache outer_cache;;
  mret r.

(** [ranges::for_each(vec | std::views::filter(pred), f)]: the filter view
    is a temporary built for this call, so it starts without a cached
    [begin()].  The standard gives no meaning to a program that changes an
    element through a filter iterator so that it stops satisfying the
    predicate; the embedding does what the iterator operations do, which in
    this single forward pass never look at a changed element again. *)
Definition for_each_filtered (pred : Z → bool) (f : Z → Z) : M unit :=
  put_cache None;;
  for_each (FilterView TheVector pred) f.

Definition vec : list Z := [1; 2; 3; 4; 5].

(** [use_for_each]; the result is the list of lines its two calls of
    [show] write (the banner line is left out). *)
Definition use_for_each : M (list (list Z)) :=
  with_local vec
    (line1 ← show TheVector;
     for_each_filtered even add_one;;
     line2 ← show TheVector;
     mret [line1; line2]).

Definition numbers : list Z := [6; 5; 4; 3; 2; 1].

(** [main]; the result is the list of lines written by [show], those of
    [use_for_each] included (the version banner is left out). *)
Definition main : M (list (list Z)) :=
  with_local numbers
    (line1 ← show TheVector;
     results ← build_pipeline is_even increment;
     line2 ← show results;
     lines ← use_for_each;
     mret (line1 :: line2 :: lines)).

(** ** Running the programs *)

(** Build the pipeline and consume it once with [show]. *)
Definition consume (pred : Z → bool) (f : Z → Z) : M (list Z) :=
  results ← build_pipeline pred f;
  show results.

(** Build the pipeline and consume the same view object twice. *)
Definition consume_twice (pred : Z → bool) (f : Z → Z) :
    M (list Z * list Z) :=
  results ← build_pipeline pred f;
  first_pass ← show results;
  second_pass ← show results;
  mret (first_pass, second_pass).

(** An arbitrary change of the vector (contents or size). *)
Definition modify (g : list Z → list Z) : M unit :=
  l ← get_elems;
  put_elems (g l).

(** Build the pipeline, change the vector, and only then consume. *)
Definition consume_after (g : list Z → list Z) (pred : Z → bool)
    (f : Z → Z) : M (list Z) :=
  results ← build_pipeline pred f;
  modify g;;
  show results.

(** Consume, change the vector, consume the same view object again. *)
Definition consume_modify_consume (g : list Z → list Z) (pred : Z → bool)
    (f : Z → Z) : M (list Z * list Z) :=
  results ← build_pipeline pred f;
  first_pass ← show results;
  modify g;;
  second_pass ← show results;
  mret (first_pass, second_pass).

(** The value a run returns. *)
Definition value {A} (r : result (A * machine)) : result A :=
  match r with
  | Ok (a, _) => Ok a
  | Undefined => Undefined
  | OutOfFuel => OutOfFuel
  end.

(** The contents of the vector after a run. *)
Definition contents {A} (r : result (A * machine)) : result (list Z) :=
  match r with
  | Ok (_, s) => Ok (elems s)
  | Undefined => Undefined
  | OutOfFuel => OutOfFuel
  end.

(** ** Reference functions used in the statements *)

(** What a filtered [for_each] leaves in an element. *)
Definition updated (pred : Z → bool) (f : Z → Z) (x : Z) : Z :=
  if pred x then f x else x.

Arguments updated : simpl never.

(** The calls a single forward pass makes over the elements [l] that sit at
    offsets [i], [i+1], ...: the predicate on every element, followed at
    once by the function when the predicate held. *)
Fixpoint visit_trace (pred : Z → bool) (i : nat) (l : list Z) : list event :=
  match l with
  | [] => []
  | x :: l' =>
      CallPred i x :: (if pred x then [CallMut i x] else [])
        ++ visit_trace pred (S i) l'
  end.

(** Offset of the first element of [l] that satisfies [pred]; the length
    of [l] if there is none. *)
Fixpoint first_match (pred : Z → bool) (l : list Z) : nat :=
  match l with
  | [] => 0
  | x :: l' => if pred x then 0 else S (first_match pred l')
  end.

(** The predicate calls of a search that starts at offset [i] over the
    elements [l]: it stops after the first element that satisfies [pred]. *)
Fixpoint scan_trace (pred : Z → bool) (i : nat) (l : list Z) : list event :=
  match l with
  | [] => []
  | x :: l' => CallPred i x :: (if pred x then [] else scan_trace pred (S i) l')
  end.

(** Offset of the last element of [l] below offset [it] that satisfies
    [pred], if there is one. *)
Fixpoint prev_match (pred : Z → bool) (l : list Z) (it : nat) : option nat :=
  match it with
  | O => None
  | S k =>
      match l !! k with
      | Some x => if pred x then Some k else prev_match pred l k
      | None => None
      end
  end.

(** The offsets and arguments of the [for_each] function calls in a trace. *)
Definition mutator_calls (t : list event) : list (nat * Z) :=
  omap (λ e, match e with CallMut i x => Some (i, x) | _ => None end) t.

Definition predicate_calls (t : list event) : list (nat * Z) :=
  omap (λ e, match e with CallPred i x => Some (i, x) | _ => None end) t.

(** The elements of [l] paired with their offsets, counted from [i]. *)
Fixpoint enumerate (i : nat) (l : list Z) : list (nat * Z) :=
  match l with
  | [] => []
  | x :: l' => (i, x) :: enumerate (S i) l'
  end.

(** No element of [l] satisfies [pred]. *)
Definition no_match (pred : Z → bool) (l : list Z) : Prop :=
  Forall (λ x, pred x = false) l.

(** States that hold the same vector and the same cached iterator. *)
Definition same_store (s s' : machine) : Prop :=
  elems s' = elems s ∧ cached_begin s' = cached_begin s.

(** ** The text [show] writes *)

(** [std::cout << v] for an [int] with the default flags: its decimal
    digits, after a minus sign when it is negative. *)
Definition decimal (v : Z) : string :=
  DecimalString.NilZero.string_of_int (Z.to_int v).

Fixpoint blanks (n : nat) : string :=
  match n with
  | O => ""
  | S n' => String " "%char (blanks n')
  end.

(** [std::setw(w)] in front of one insertion, with the default fill and
    adjustment: blanks on the left up to [w] columns; text that is wider
    is written in full. *)
Definition setw (w : nat) (text : string) : string :=
  blanks (w - String.length text) +:+ text.

(** The character [std::endl] writes. *)
Definition endl : string := String "010"%char "".

(** The range-based [for] of [show] with the characters it streams:
    [std::cout << std::setw(2) << v] for every element. *)
Fixpoint show_text_loop {R} `{Range R} (n : nat) (container : R)
    (it last : nat) : M string :=
  if (it =? last)%nat then mret ""
  else match n with
       | O => out_of_fuel
       | S n' =>
           v ← deref container it;
           it' ← next container it;
           rest ← show_text_loop n' container it' last;
           mret (setw 2 (decimal v) +:+ rest)
       end.

(** [show], returning the line it writes to [std::cout]. *)
Definition show_text {R} `{Range R} (container : R) : M string :=
  it ← begin_ container;
  last ← end_ container;
  body ← show_text_loop (distance it last) container it last;
  mret (body +:+ endl).

(** The line [show] writes for a container whose elements are [vs]. *)
Definition format_line (vs : list Z) : string :=
  foldr (λ v rest, setw 2 (decimal v) +:+ rest) "" vs +:+ endl.

(** The values that fit the two columns [show] reserves. *)
Definition two_columns (v : Z) : Prop := -9 ≤ v ≤ 99.

(** ** More runs and reference functions *)

(** The offsets and arguments of the calls of [transform]'s function. *)
Definition function_calls (t : list event) : list (nat * Z) :=
  omap (λ e, match e with CallFun i x => Some (i, x) | _ => None end) t.

(** The elements of [l] that satisfy [pred], with their offsets. *)
Definition matching (pred : Z → bool) (l : list Z) : list (nat * Z) :=
  List.filter (λ ix, pred ix.2) (enumerate 0 l).

(** The elements of [l] at the offsets from [b - 1] down to [a], each with
    its offset. *)
Definition descending (l : list Z) (a b : nat) : list (nat * Z) :=
  rev (drop a (take b (enumerate 0 l))).

(** The list [d] cut into stretches that each end with an element
    satisfying [pred], every stretch written twice in a row; [acc] is the
    part of the current stretch already read. *)
Fixpoint doubled_stretches (pred : Z → bool) (acc d : list (nat * Z)) :
    list (nat * Z) :=
  match d with
  | [] => []
  | ix :: d' =>
      if pred ix.2
      then (acc ++ [ix]) ++ (acc ++ [ix]) ++ doubled_stretches pred [] d'
      else doubled_stretches pred (acc ++ [ix]) d'
  end.

(** The filtered [for_each] run twice in a row over the same vector. *)
Definition for_each_twice (pred : Z → bool) (f : Z → Z) : M unit :=
  for_each_filtered pred f;;
  for_each_filtered pred f.

(** The state [s] after the further calls [t]. *)
Definition logged (s : machine) (t : list event) : machine :=
  {| elems := elems s; cached_begin := cached_begin s;
     trace := trace s ++ t |}.

(** ** Facts about the reference functions *)

Lemma updated_true pred f x : pred x = true → updated pred f x = f x.
Proof. unfold updated. by intros ->. Qed.

Lemma updated_false pred f x : pred x = false → updated pred f x = x.
Proof. unfold updated. by intros ->. Qed.

Section reference_facts.
Variables (pred : Z → bool) (f : Z → Z).

Lemma first_match_le l : (first_match pred l ≤ length l)%nat.
Proof. induction l as [|x l IH]; simpl; [lia|]. destruct (pred x); lia. Qed.

(** Either nothing matches, or the list splits at its first match. *)
Lemma first_match_cases l :
  (first_match pred l = length l ∧ no_match pred l) ∨
  (∃ pre x suf, l = pre ++ x :: suf ∧ first_match pred l = length pre ∧
                no_match pred pre ∧ pred x = true).
Proof.
  induction l as [|y l IH]; simpl.
  - left. split; [done | constructor].
  - destruct (pred y) eqn:Hy.
    + right. exists [], y, l. repeat split; [constructor | done].
    + destruct IH as [[E Hn] | (pre & x & suf & -> & E & Hn & Hx)].
      * left. split; [by rewrite E | by constructor].
      * right. exists (y :: pre), x, suf. simpl.
        repeat split; [by rewrite E | by constructor | done].
Qed.

Lemma no_match_updated l : no_match pred l → map (updated pred f) l = l.
Proof.
  induction 1 as [|x l Hx _ IH]; simpl; [done|].
  by rewrite (updated_false _ _ _ Hx), IH.
Qed.

Lemma no_match_filter l : no_match pred l → List.filter pred l = [].
Proof. induction 1 as [|x l Hx _ IH]; simpl; [done|]. by rewrite Hx. Qed.

Lemma no_match_scan_trace l : ∀ i,
  no_match pred l → scan_trace pred i l = visit_trace pred i l.
Proof.
  induction l as [|x l IH]; intros i Hn; simpl; [done|].
  inversion Hn as [|? ? Hx Hl]; subst. rewrite Hx. simpl. by rewrite IH.
Qed.

Lemma visit_trace_app l1 l2 : ∀ i,
  visit_trace pred i (l1 ++ l2) =
    visit_trace pred i l1 ++ visit_trace pred (i + length l1) l2.
Proof.
  induction l1 as [|x l1 IH]; intros i; simpl.
  - by rewrite Nat.add_0_r.
  - rewrite IH, Nat.add_succ_r. simpl. by rewrite <- !app_assoc.
Qed.

Lemma scan_trace_first_match pre x suf : ∀ i,
  no_match pred pre → pred x = true →
  scan_trace pred i (pre ++ x :: suf) =
    visit_trace pred i pre ++ [CallPred (i + length pre) x].
Proof.
  induction pre as [|y pre IH]; intros i Hn Hx; simpl.
  - by rewrite Hx, Nat.add_0_r.
  - inversion Hn as [|? ? Hy Hl]; subst. rewrite Hy. simpl.
    by rewrite IH, Nat.add_succ_r.
Qed.

(** The function calls of a pass are the matching elements, in order. *)
Lemma mutator_calls_visit l : ∀ i,
  mutator_calls (visit_trace pred i l) =
    List.filter (λ ix, pred ix.2) (enumerate i l).
Proof.
  unfold mutator_calls.
  induction l as [|x l IH]; intros i; simpl; [done|].
  destruct (pred x); simpl; by rewrite IH.
Qed.

(** The predicate calls of a pass are all elements, in order. *)
Lemma predicate_calls_visit l : ∀ i,
  predicate_calls (visit_trace pred i l) = enumerate i l.
Proof.
  unfold predicate_calls.
  induction l as [|x l IH]; intros i; simpl; [done|].
  destruct (pred x); simpl; by rewrite IH.
Qed.

Lemma first_match_take l :
  List.filter pred (take (first_match pred l) l) = [].
Proof.
  induction l as [|x l IH]; simpl; [done|].
  destruct (pred x) eqn:Hx; simpl; [done|]. by rewrite Hx.
Qed.

Lemma first_match_lookup l :
  (first_match pred l < length l)%nat →
  ∃ x, l !! first_match pred l = Some x ∧ pred x = true.
Proof.
  induction l as [|x l IH]; simpl; [lia|].
  destruct (pred x) eqn:Hx; [eauto|].
  intros Hlt. apply IH. lia.
Qed.

Lemma first_match_least l : ∀ j x,
  l !! j = Some x → pred x = true → (first_match pred l ≤ j)%nat.
Proof.
  induction l as [|y l IH]; intros j x Hj Hx; simpl; [lia|].
  destruct (pred y) eqn:Hy; [lia|].
  destruct j as [|j]; simpl in Hj.
  - congruence.
  - specialize (IH _ _ Hj Hx). lia.
Qed.

Lemma prev_match_Some l it : ∀ j,
  prev_match pred l it = Some j →
  (j < it)%nat ∧
  ∃ x, l !! j = Some x ∧ pred x = true ∧
       List.filter pred (take it l) = List.filter pred (take j l) ++ [x].
Proof.
  induction it as [|k IH]; intros j; simpl; [done|].
  destruct (l !! k) as [y|] eqn:Hk; [|done].
  rewrite (take_S_r _ _ _ Hk), List.filter_app. simpl.
  destruct (pred y) eqn:Hy.
  - intros [= <-]. split; [lia|]. eauto.
  - intros Hj. destruct (IH _ Hj) as (Hlt & x & Hx & Hp & E).
    split; [lia|]. exists x. by rewrite app_nil_r.
Qed.

Lemma prev_match_exists l it : ∀ e x,
  (e < it ≤ length l)%nat → l !! e = Some x → pred x = true →
  is_Some (prev_match pred l it).
Proof.
  induction it as [|k IH]; intros e x He Hx Hp; simpl; [lia|].
  destruct (lookup_lt_is_Some_2 l k) as [y Hk]; [lia|]. rewrite Hk.
  destruct (pred y) eqn:Hy; [eauto|].
  apply (IH e x); [|done..].
  assert (e ≠ k) by (intros ->; congruence). lia.
Qed.
End reference_facts.

(** ** The loops, one iteration at a time *)

Lemma find_if_loop_done {R} `{Range R} n (r : R) last pred :
  find_if_loop n r last last pred = mret last.
Proof. destruct n; simpl; by rewrite Nat.eqb_refl. Qed.

Lemma find_if_loop_step {R} `{Range R} n (r : R) first last pred :
  first ≠ last →
  find_if_loop (S n) r first last pred =
    (x ← deref r first;
     log (CallPred first x);;
     if pred x then mret first
     else first' ← next r first; find_if_loop n r first' last pred).
Proof. intros Hne. simpl. by rewrite (proj2 (Nat.eqb_neq _ _) Hne). Qed.

Lemma for_each_loop_done {R} `{MutableRange R} n (r : R) last f :
  for_each_loop n r last last f = mret ().
Proof. destruct n; simpl; by rewrite Nat.eqb_refl. Qed.

Lemma for_each_loop_step {R} `{MutableRange R} n (r : R) first last f :
  first ≠ last →
  for_each_loop (S n) r first last f =
    (x ← deref r first;
     log (CallMut first x);;
     assign r first (f x);;
     first' ← next r first;
     for_each_loop n r first' last f).
Proof. intros Hne. simpl. by rewrite (proj2 (Nat.eqb_neq _ _) Hne). Qed.

Lemma filter_prev_loop_step {V} `{BidirectionalRange V} n (b : V) pred it :
  filter_prev_loop (S n) b pred it =
    (it' ← prev b it;
     x ← deref b it';
     log (CallPred it' x);;
     if pred x then mret it' else filter_prev_loop n b pred it').
Proof. reflexivity. Qed.

Lemma show_loop_done {R} `{Range R} n (c : R) last :
  show_loop n c last last = mret [].
Proof. destruct n; simpl; by rewrite Nat.eqb_refl. Qed.

Lemma show_loop_step {R} `{Range R} n (c : R) it last :
  it ≠ last →
  show_loop (S n) c it last =
    (v ← deref c it;
     it' ← next c it;
     rest ← show_loop n c it' last;
     mret (v :: rest)).
Proof. intros Hne. simpl. by rewrite (proj2 (Nat.eqb_neq _ _) Hne). Qed.

(** Reading and writing the vector through an offset in range. *)

Lemma deref_vector s i x :
  elems s !! i = Some x → deref TheVector i s = Ok (x, s).
Proof.
  intros E. unfold deref, vector_range, mbind, M_bind, get_elems.
  by rewrite E.
Qed.

Lemma assign_vector s i x y :
  elems s !! i = Some x →
  assign TheVector i y s =
    Ok ((), {| elems := <[i := y]> (elems s);
               cached_begin := cached_begin s; trace := trace s |}).
Proof.
  intros E. unfold assign, vector_mutable, mbind, M_bind, get_elems.
  by rewrite E.
Qed.

(** [++it] on a filter view over the vector. *)
Lemma filter_next_vector pred it s :
  next (FilterView TheVector pred) it s =
    find_if_loop (length (elems s) - S it) TheVector (S it)
      (length (elems s)) pred s.
Proof. reflexivity. Qed.

Lemma next_vector it s : next TheVector it s = Ok (S it, s).
Proof. reflexivity. Qed.

Lemma prev_vector_S it s : prev TheVector (S it) s = Ok (it, s).
Proof. reflexivity. Qed.

(** Length bookkeeping for a vector split around one element. *)
Ltac split_lengths := simpl; rewrite ?length_app; simpl; done || lia.

Section for_each_proofs.
Variables (pred : Z → bool) (f : Z → Z).

(** [find_if] over the vector, started behind the prefix [pre]: it stops at
    the first match of the rest and has called the predicate on every
    element up to there. *)
Lemma find_if_vector suf : ∀ pre s first last,
  elems s = pre ++ suf →
  first = length pre →
  last = (first + length suf)%nat →
  find_if_loop (length suf) TheVector first last pred s =
    Ok ((first + first_match pred suf)%nat,
        {| elems := elems s; cached_begin := cached_begin s;
           trace := trace s ++ scan_trace pred first suf |}).
Proof.
  induction suf as [|x suf IH]; intros pre [l c t] first last El -> ->;
    simpl in El; subst l.
  - change (length (@nil Z)) with 0%nat.
    rewrite Nat.add_0_r, find_if_loop_done. simpl.
    unfold mret, M_ret. by rewrite Nat.add_0_r, !app_nil_r.
  - simpl length. rewrite find_if_loop_step by lia.
    unfold mbind at 1 2, M_bind at 1 2.
    rewrite (deref_vector _ _ x) by (simpl; by rewrite list_lookup_middle).
    unfold log at 1. cbn [elems cached_begin trace].
    destruct (pred x) eqn:Hp.
    + simpl. rewrite Hp. unfold mret, M_ret. by rewrite Nat.add_0_r.
    + unfold mbind at 1, M_bind at 1. rewrite next_vector.
      etrans.
      { apply (IH (pre ++ [x]) _ (S (length pre))
                 (length pre + S (length suf))%nat); [|split_lengths..].
        simpl. by rewrite <- app_assoc. }
      simpl. rewrite Hp, <- !app_assoc. simpl.
      by rewrite Nat.add_succ_r.
Qed.

(** One iteration of [for_each] at the offset behind [pre]: the function
    is called on the element there, its result is stored in place, and
    [++first] resumes the search right behind it. *)
Lemma for_each_iteration pre x suf s n first last :
  elems s = pre ++ x :: suf →
  first = length pre →
  last = (first + S (length suf))%nat →
  for_each_loop (S n) (FilterView TheVector pred) first last f s =
    (i ← find_if_loop (length suf) TheVector (S first) last pred;
     for_each_loop n (FilterView TheVector pred) i last f)
      {| elems := pre ++ f x :: suf; cached_begin := cached_begin s;
         trace := trace s ++ [CallMut first x] |}.
Proof.
  destruct s as [l c t]. cbn [elems cached_begin trace]. intros -> -> ->.
  rewrite for_each_loop_step by lia.
  change (deref (FilterView TheVector pred)) with (deref TheVector).
  change (assign (FilterView TheVector pred)) with (assign TheVector).
  unfold mbind at 1 2 3 4, M_bind at 1 2 3 4.
  rewrite (deref_vector _ _ x) by (simpl; by rewrite list_lookup_middle).
  unfold log at 1. cbn [elems cached_begin trace].
  rewrite (assign_vector _ _ x) by (simpl; by rewrite list_lookup_middle).
  cbn [elems cached_begin trace].
  rewrite filter_next_vector. cbn [elems].
  rewrite insert_app_r_alt, Nat.sub_diag by done. simpl insert.
  replace (length (pre ++ f x :: suf) - S (length pre))%nat
    with (length suf) by split_lengths.
  replace (length (pre ++ f x :: suf))
    with (length pre + S (length suf))%nat by split_lengths.
  reflexivity.
Qed.

(** The search for the next match followed by the rest of the loop: the
    elements behind [pre] are all visited, the matching ones updated. *)
Lemma for_each_from suf : ∀ pre s (n : nat → nat) first last,
  elems s = pre ++ suf →
  first = length pre →
  last = (first + length suf)%nat →
  (∀ i, first ≤ i → last - i ≤ n i)%nat →
  (i ← find_if_loop (length suf) TheVector first last pred;
   for_each_loop (n i) (FilterView TheVector pred) i last f) s
  = Ok ((), {| elems := pre ++ map (updated pred f) suf;
               cached_begin := cached_begin s;
               trace := trace s ++ visit_trace pred first suf |}).
Proof.
  induction suf as [|x suf IH]; intros pre [l c t] n first last El -> -> Hn;
    simpl in El; subst l.
  - change (length (@nil Z)) with 0%nat.
    rewrite Nat.add_0_r, find_if_loop_done.
    unfold mbind, M_bind, mret, M_ret.
    rewrite for_each_loop_done. unfold mret, M_ret. simpl.
    by rewrite !app_nil_r.
  - simpl length. rewrite find_if_loop_step by lia.
    unfold mbind at 1 2 3, M_bind at 1 2 3.
    rewrite (deref_vector _ _ x) by (simpl; by rewrite list_lookup_middle).
    unfold log at 1. cbn [elems cached_begin trace].
    destruct (pred x) eqn:Hp.
    + unfold mret at 1, M_ret at 1.
      destruct (n (length pre)) as [|n'] eqn:En.
      { specialize (Hn (length pre)). simpl in Hn. lia. }
      rewrite (for_each_iteration pre x suf) by split_lengths.
      etrans.
      { apply (IH (pre ++ [f x]) _ (λ _, n') (S (length pre))
                 (length pre + S (length suf))%nat); [|split_lengths..|].
        - simpl. by rewrite <- app_assoc.
        - intros i Hi. specialize (Hn (length pre)). simpl in Hn. lia. }
      simpl. rewrite (updated_true _ _ _ Hp), Hp.
      by rewrite <- !app_assoc.
    + unfold mbind at 1, M_bind at 1. rewrite next_vector.
      etrans.
      { apply (IH (pre ++ [x]) _ n (S (length pre))
                 (length pre + S (length suf))%nat); [|split_lengths..|].
        - simpl. by rewrite <- app_assoc.
        - intros i Hi. specialize (Hn i). simpl in Hn. lia. }
      simpl. rewrite (updated_false _ _ _ Hp), Hp.
      by rewrite <- !app_assoc.
Qed.

(** The loop entered at a match. *)
Lemma for_each_loop_match pre x suf s n first last :
  elems s = pre ++ x :: suf →
  pred x = true →
  first = length pre →
  last = (first + S (length suf))%nat →
  (last - first ≤ n)%nat →
  for_each_loop n (FilterView TheVector pred) first last f s =
    Ok ((), {| elems := pre ++ f x :: map (updated pred f) suf;
               cached_begin := cached_begin s;
               trace := trace s
                 ++ CallMut first x :: visit_trace pred (S first) suf |}).
Proof.
  intros El Hp -> -> Hn. destruct n as [|n]; [lia|].
  rewrite (for_each_iteration pre x suf) by done.
  etrans.
  { apply (for_each_from suf (pre ++ [f x]) _ (λ _, n) (S (length pre))
             (length pre + S (length suf))%nat); [|split_lengths..|].
    - simpl. by rewrite <- app_assoc.
    - intros i Hi. lia. }
  simpl. by rewrite <- !app_assoc.
Qed.

Lemma end_vector s : end_ TheVector s = Ok (length (elems s), s).
Proof. reflexivity. Qed.

Lemma filter_end_vector s :
  end_ (FilterView TheVector pred) s = Ok (length (elems s), s).
Proof. reflexivity. Qed.

(** The first [begin()] of a filter view searches from the start of the
    vector and caches what it finds. *)
Lemma filter_begin_fresh s :
  cached_begin s = None →
  begin_ (FilterView TheVector pred) s =
    Ok (first_match pred (elems s),
        {| elems := elems s;
           cached_begin := Some (first_match pred (elems s));
           trace := trace s ++ scan_trace pred 0 (elems s) |}).
Proof.
  destruct s as [l c t]. simpl. intros ->.
  unfold mbind, M_bind, get_cache, find_if. simpl.
  rewrite Nat.sub_0_r.
  rewrite (find_if_vector l [] _ 0%nat (length l)) by done.
  reflexivity.
Qed.

(** Later calls return the cached iterator. *)
Lemma filter_begin_cached s it :
  cached_begin s = Some it →
  begin_ (FilterView TheVector pred) s = Ok (it, s).
Proof.
  destruct s as [l c t]. simpl. intros ->. reflexivity.
Qed.

(** A filtered [for_each] over a vector holding [l]: every element is
    replaced by its [updated] value, and the calls are those of one
    forward pass. *)
Lemma for_each_filtered_run l :
  for_each_filtered pred f (init l) =
    Ok ((), {| elems := map (updated pred f) l;
               cached_begin := Some (first_match pred l);
               trace := visit_trace pred 0 l |}).
Proof.
  unfold for_each_filtered, for_each, init.
  unfold mbind at 1, M_bind at 1, put_cache at 1.
  cbn [elems cached_begin trace].
  unfold mbind at 1 2, M_bind at 1 2.
  rewrite filter_begin_fresh by done. rewrite filter_end_vector.
  cbn [elems cached_begin trace].
  destruct (first_match_cases pred l)
    as [[E Hn] | (pre & x & suf & -> & E & Hn & Hx)]; rewrite E.
  - rewrite for_each_loop_done. unfold mret, M_ret.
    by rewrite no_match_updated, no_match_scan_trace.
  - rewrite (for_each_loop_match pre x suf) by
      (simpl; rewrite ?length_app; simpl; done || lia).
    simpl. rewrite scan_trace_first_match by done.
    rewrite visit_trace_app, map_app. simpl.
    rewrite Hx, (updated_true _ _ _ Hx), (no_match_updated _ _ pre) by done.
    by rewrite <- app_assoc.
Qed.
End for_each_proofs.

Section pipeline_proofs.
Variables (pred : Z → bool) (f : Z → Z).

Lemma same_store_refl s : same_store s s.
Proof. by split. Qed.

(** [--it] on the filter view lands on the previous match. *)
Lemma filter_prev_vector it : ∀ n s j,
  prev_match pred (elems s) it = Some j →
  (it ≤ n)%nat →
  ∃ s', filter_prev_loop n TheVector pred it s = Ok (j, s') ∧
        same_store s s'.
Proof.
  induction it as [|k IH]; intros n s j; simpl; [done|].
  destruct (elems s !! k) as [y|] eqn:Hk; [|done].
  intros Hj Hn. destruct n as [|n]; [lia|].
  rewrite filter_prev_loop_step.
  unfold mbind at 1 2 3, M_bind at 1 2 3. rewrite prev_vector_S.
  rewrite (deref_vector _ _ y) by done.
  unfold log at 1.
  destruct (pred y) eqn:Hy.
  - injection Hj as <-. eexists. split; [reflexivity|]. by split.
  - destruct (IH n {| elems := elems s; cached_begin := cached_begin s;
                       trace := trace s ++ [CallPred k y] |} j)
      as (s' & E & Hs'); [done | lia |].
    exists s'. split; [done|]. exact Hs'.
Qed.

(** [++it] on the reversed view is [--] on the filter iterator below. *)
Lemma pipeline_next it s j :
  prev_match pred (elems s) it = Some j →
  ∃ s', next (pipeline pred f) it s = Ok (j, s') ∧ same_store s s'.
Proof.
  intros Hj.
  change (next (pipeline pred f) it)
    with (filter_prev_loop (S it) TheVector pred it).
  apply filter_prev_vector; [done | lia].
Qed.

(** [*it] on the reversed view: step back to the previous match, read it
    and hand its value to [f]. *)
Lemma pipeline_deref it s j x :
  prev_match pred (elems s) it = Some j →
  elems s !! j = Some x →
  ∃ s', deref (pipeline pred f) it s = Ok (f x, s') ∧ same_store s s'.
Proof.
  intros Hj Hx.
  change (deref (pipeline pred f) it)
    with (tmp ← filter_prev_loop (S it) TheVector pred it;
          x ← deref TheVector tmp;
          log (CallFun tmp x);;
          mret (f x)).
  destruct (filter_prev_vector it (S it) s j) as (s1 & E & [El Ec]);
    [done | lia |].
  unfold mbind at 1, M_bind at 1. rewrite E.
  unfold mbind at 1, M_bind at 1.
  rewrite (deref_vector _ _ x) by (by rewrite El).
  eexists. split; [reflexivity|]. by split.
Qed.

(** The range-based [for] over the pipeline, entered at offset [it]:
    it streams the images of the matches below [it], last match first. *)
Lemma pipeline_show_loop n : ∀ it s,
  (first_match pred (elems s) ≤ it ≤ length (elems s))%nat →
  (it - first_match pred (elems s) ≤ n)%nat →
  ∃ s', show_loop n (pipeline pred f) it (first_match pred (elems s)) s =
          Ok (rev (map f (List.filter pred (take it (elems s)))), s') ∧
        same_store s s'.
Proof.
  induction n as [|n IH]; intros it s Hit Hn.
  - assert (it = first_match pred (elems s)) as -> by lia.
    rewrite show_loop_done, first_match_take.
    exists s. split; [done | apply same_store_refl].
  - destruct (decide (it = first_match pred (elems s))) as [-> | Hne].
    { rewrite show_loop_done, first_match_take.
      exists s. split; [done | apply same_store_refl]. }
    rewrite show_loop_step by done.
    destruct (first_match_lookup pred (elems s)) as (y & Hy & Hpy); [lia|].
    destruct (prev_match_exists pred (elems s) it
                (first_match pred (elems s)) y) as [j Hj];
      [lia | done.. |].
    destruct (prev_match_Some _ _ _ _ Hj) as (Hlt & x & Hx & Hpx & Efilter).
    destruct (pipeline_deref it s j x) as (s1 & E1 & [El1 Ec1]); [done..|].
    destruct (pipeline_next it s1 j) as (s2 & E2 & [El2 Ec2]);
      [by rewrite El1|].
    pose proof (first_match_least pred _ _ _ Hx Hpx) as Hle.
    destruct (IH j s2) as (s3 & E3 & [El3 Ec3]).
    { rewrite El2, El1. lia. }
    { rewrite El2, El1. lia. }
    rewrite El2, El1 in E3.
    unfold mbind at 1, M_bind at 1. rewrite E1.
    unfold mbind at 1, M_bind at 1. rewrite E2.
    unfold mbind at 1, M_bind at 1. rewrite E3.
    exists s3. split.
    + rewrite Efilter, map_app, rev_app_distr. reflexivity.
    + split; congruence.
Qed.

(** Consuming the pipeline with [show], from a state whose filter view
    has not been iterated yet or holds the right cached iterator. *)
Lemma pipeline_show s :
  cached_begin s = None ∨
    cached_begin s = Some (first_match pred (elems s)) →
  ∃ s', show (pipeline pred f) s =
          Ok (rev (map f (List.filter pred (elems s))), s') ∧
        elems s' = elems s ∧
        cached_begin s' = Some (first_match pred (elems s)).
Proof.
  intros Hc. unfold show.
  change (begin_ (pipeline pred f)) with (end_ TheVector).
  change (end_ (pipeline pred f))
    with (begin_ (FilterView TheVector pred)).
  unfold mbind at 1 2, M_bind at 1 2. rewrite end_vector.
  set (e := first_match pred (elems s)).
  assert (∃ s1, begin_ (FilterView TheVector pred) s = Ok (e, s1) ∧
                elems s1 = elems s ∧ cached_begin s1 = Some e)
    as (s1 & E1 & El1 & Ec1).
  { destruct Hc as [Hc | Hc].
    - rewrite filter_begin_fresh by done. eexists. split; [reflexivity|].
      by split.
    - rewrite (filter_begin_cached _ _ _ Hc). by exists s. }
  rewrite E1.
  destruct (pipeline_show_loop (distance (length (elems s)) e)
              (length (elems s)) s1) as (s2 & E2 & [El2 Ec2]).
  { rewrite El1. split; [apply first_match_le | done]. }
  { rewrite El1. unfold distance. fold e. lia. }
  rewrite El1 in E2. fold e in E2. rewrite E2.
  exists s2. rewrite firstn_all. split; [done|]. split; congruence.
Qed.
End pipeline_proofs.

(** ** The pipeline *)

Lemma consume_run pred f s :
  ∃ s', consume pred f s = Ok (rev (map f (List.filter pred (elems s))), s') ∧
        elems s' = elems s ∧
        cached_begin s' = Some (first_match pred (elems s)).
Proof.
  unfold consume, build_pipeline.
  destruct (pipeline_show pred f
              {| elems := elems s; cached_begin := None; trace := trace s |})
    as (s' & E & El & Ec); [by left|].
  exists s'. split; [|by split]. exact E.
Qed.

(** C1. For the source [6,5,4,3,2,1], the predicate "is even" and the
    mapper "increment by 1", consuming the filter | transform | reverse
    pipeline yields exactly [3,5,7]; [main] prints the source and then
    that sequence. *)
Theorem pipeline_fixed_input :
  value (consume is_even increment (init [6; 5; 4; 3; 2; 1])) = Ok [3; 5; 7] ∧
  ∃ lines,
    value (main (init [])) = Ok ([6; 5; 4; 3; 2; 1] :: [3; 5; 7] :: lines).
Proof. split; [|eexists]; vm_compute; reflexivity. Qed.

(** C3. For every source [l], predicate and mapper, consuming the pipeline
    yields the reverse of the mapper applied to the elements of [l] that
    satisfy the predicate, in their original order.  In particular the
    result is empty for an empty source and for a source none of whose
    elements satisfies the predicate. *)
Theorem pipeline_spec (l : list Z) (pred : Z → bool) (f : Z → Z) :
  value (consume pred f (init l)) = Ok (rev (map f (List.filter pred l))) ∧
  value (consume pred f (init [])) = Ok [] ∧
  (Forall (λ x, pred x = false) l → value (consume pred f (init l)) = Ok []).
Proof.
  assert (∀ l', value (consume pred f (init l')) =
                Ok (rev (map f (List.filter pred l')))) as Hrun.
  { intros l'. destruct (consume_run pred f (init l')) as (s' & E & _).
    by rewrite E. }
  split; [apply Hrun|]. split; [apply Hrun|].
  intros Hno. by rewrite Hrun, no_match_filter.
Qed.

Lemma pipeline_spec_witness :
  value (consume is_even increment (init [5; 3; 1])) = Ok [].
Proof.
  destruct (pipeline_spec [5; 3; 1] is_even increment) as (_ & _ & H).
  apply H. repeat constructor.
Defined.

(** C5. Building and fully consuming the pipeline leaves the source as it
    was: whatever the vector holds, whatever the predicate and the mapper,
    the vector holds the same elements afterwards.  This covers the mapper
    of [main], whose increment acts on its by-value parameter. *)
Theorem pipeline_leaves_source (s : machine) (pred : Z → bool) (f : Z → Z) :
  (∃ out s', consume pred f s = Ok (out, s') ∧ elems s' = elems s) ∧
  (∃ out s', consume is_even increment s = Ok (out, s') ∧
             elems s' = elems s).
Proof.
  split.
  - destruct (consume_run pred f s) as (s' & E & El & _). eauto.
  - destruct (consume_run is_even increment s) as (s' & E & El & _). eauto.
Qed.

(** C6. With the source unchanged, consuming the same pipeline object twice
    yields the same sequence both times. *)
Theorem pipeline_consumed_twice (l : list Z) (pred : Z → bool) (f : Z → Z) :
  ∃ out, value (consume_twice pred f (init l)) = Ok (out, out) ∧
         out = rev (map f (List.filter pred l)).
Proof.
  exists (rev (map f (List.filter pred l))). split; [|done].
  unfold consume_twice, build_pipeline, init.
  unfold mbind at 1 2, M_bind at 1 2, put_cache, mret at 1, M_ret at 1.
  destruct (pipeline_show pred f
              {| elems := l; cached_begin := None; trace := [] |})
    as (s1 & E1 & El1 & Ec1); [by left|].
  simpl in E1, El1, Ec1. cbn [elems trace cached_begin].
  unfold mbind at 1, M_bind at 1. cbn [elems trace cached_begin]. rewrite E1.
  destruct (pipeline_show pred f s1) as (s2 & E2 & El2 & Ec2).
  { right. by rewrite Ec1, El1. }
  rewrite El1 in E2.
  unfold mbind at 1, M_bind at 1. rewrite E2. reflexivity.
Qed.

(** C7 as stated fails for a consumption that is not the first one: the
    pipeline over [1,2,4] is consumed, the vector becomes [2,2,4], and the
    second consumption still stops at the offset the first one cached, so
    it does not yield the filter-transform-reverse of [2,2,4]. *)
Lemma pipeline_second_consumption_stale :
  ∃ first_pass second_pass,
    value (consume_modify_consume (λ _, [2; 2; 4]) is_even increment
             (init [1; 2; 4])) = Ok (first_pass, second_pass) ∧
    second_pass ≠ rev (map increment (List.filter is_even [2; 2; 4])).
Proof.
  exists [5; 3], [5; 3]. split; [by vm_compute | vm_compute; discriminate].
Qed.

(** C7, amended. The pipeline holds no copy of its source: when the vector
    is changed in any way between building the pipeline and consuming it
    for the first time, the consumed sequence is the
    filter-transform-reverse of the vector as it is at consumption.  This
    holds from every state, whatever an earlier view has left in the
    cache, because building the pipeline makes a view that has not been
    iterated. *)
Theorem pipeline_no_snapshot (s : machine) (g : list Z → list Z)
    (pred : Z → bool) (f : Z → Z) :
  value (consume_after g pred f s) =
    Ok (rev (map f (List.filter pred (g (elems s))))).
Proof.
  unfold consume_after, build_pipeline, modify.
  destruct (pipeline_show pred f
              {| elems := g (elems s); cached_begin := None;
                 trace := trace s |})
    as (s' & E & _); [by left|].
  simpl in E.
  unfold mbind at 1 2 3 4, M_bind at 1 2 3 4, put_cache, get_elems,
    put_elems, mret at 1, M_ret at 1.
  simpl. by rewrite E.
Qed.

(** The cached [begin()] of the filter view is not refreshed: a second
    consumption after a change of the vector still stops at the offset the
    first consumption found.  Here the first pass caches offset 1; after
    the vector becomes [2,2,4] the second pass misses the new first match
    at offset 0. *)
Example cached_begin_not_refreshed :
  value (consume_modify_consume (λ _, [2; 2; 4]) is_even increment
           (init [1; 2; 4])) = Ok ([5; 3], [5; 3]) ∧
  value (consume is_even increment (init [2; 2; 4])) = Ok [5; 3; 3].
Proof. split; vm_compute; reflexivity. Qed.

(** ** The lambdas *)

Lemma is_even_Even n : is_even n = true ↔ Z.Even n.
Proof.
  unfold is_even. rewrite Z.eqb_eq, Z.rem_divide by done.
  split; intros [k ->]; exists k; lia.
Qed.

Lemma even_is_even i : even i = is_even i.
Proof. unfold even, is_even. apply Z.eqb_sym. Qed.

Lemma wrap_in_range z : int_range z → wrap z = z.
Proof.
  unfold int_range, int_min, int_max, wrap. intros Hz.
  rewrite Z.mod_small; lia.
Qed.

(** Wrapping changes a value by a multiple of [2 ^ 32]. *)
Lemma wrap_eq z : ∃ q, wrap z = z - 2 ^ 32 * q.
Proof.
  unfold wrap. exists ((z + 2 ^ 31) / 2 ^ 32).
  pose proof (Z_div_mod_eq_full (z + 2 ^ 31) (2 ^ 32)). lia.
Qed.

(** On an even [int] neither increment overflows: the largest even [int]
    is [int_max - 1]. *)
Lemma add_one_even i :
  int_range i → even i = true → add_one i = i + 1 ∧ int_range (i + 1).
Proof.
  rewrite even_is_even, is_even_Even. intros Hi [k ->].
  unfold int_range, int_min, int_max in *.
  assert (int_range (2 * k + 1)) as Hr
    by (unfold int_range, int_min, int_max; lia).
  split; [|exact Hr]. unfold add_one. by apply wrap_in_range.
Qed.

Lemma increment_even n :
  int_range n → is_even n = true → increment n = n + 1.
Proof.
  rewrite <- even_is_even. intros Hn He.
  by destruct (add_one_even n Hn He) as [E _].
Qed.

Lemma add_one_Odd i : Z.Even i → Z.Odd (add_one i).
Proof.
  intros [k ->]. unfold add_one.
  destruct (wrap_eq (2 * k + 1)) as [q ->].
  exists (k - 2 ^ 31 * q). lia.
Qed.

(** C10. The evenness tests of both functions, written with the truncating
    remainder, return [true] exactly on the mathematically even integers,
    negative ones included: [true] for -2 and 0, [false] for -3. *)
Theorem evenness_correct :
  (∀ n : Z, (is_even n = true ↔ ∃ k, n = 2 * k) ∧
            (even n = true ↔ ∃ k, n = 2 * k) ∧
            is_even n = Z.even n ∧ even n = Z.even n) ∧
  is_even (-2) = true ∧ is_even 0 = true ∧ is_even (-3) = false ∧
  even (-2) = true ∧ even 0 = true ∧ even (-3) = false.
Proof.
  split; [|by vm_compute].
  intros n.
  assert (is_even n = Z.even n) as E.
  { apply eq_true_iff_eq. by rewrite is_even_Even, Z.even_spec. }
  split; [apply is_even_Even|].
  split; [rewrite even_is_even; apply is_even_Even|].
  split; [done|]. by rewrite even_is_even.
Qed.

(** ** The filtered [for_each] *)

(** C2 as stated fails: with "is even" and "increment by 1" the vector
    [1,2,3,4,5] does not end as [1,3,3,4,5]. *)
Lemma for_each_fixed_input_not_13345 :
  contents (for_each_filtered even add_one (init [1; 2; 3; 4; 5]))
    ≠ Ok [1; 3; 3; 4; 5].
Proof. vm_compute. discriminate. Qed.

(** C2, amended. For the vector [1,2,3,4,5], the predicate "is even" and
    the mutator "increment by 1", the vector ends as [1,3,3,5,5]: the
    function is called on the 2 at offset 1 and on the 4 at offset 3, each
    seen with the value it had before any call; [use_for_each] prints the
    vector before and after. *)
Theorem for_each_fixed_input :
  for_each_filtered even add_one (init [1; 2; 3; 4; 5]) =
    Ok ((), {| elems := [1; 3; 3; 5; 5];
               cached_begin := Some 1%nat;
               trace := [CallPred 0 1; CallPred 1 2; CallMut 1 2;
                         CallPred 2 3; CallPred 3 4; CallMut 3 4;
                         CallPred 4 5] |}) ∧
  value (use_for_each (init [])) = Ok [[1; 2; 3; 4; 5]; [1; 3; 3; 5; 5]].
Proof. split; vm_compute; reflexivity. Qed.

(** The lines the whole program writes with [show]. *)
Example main_output :
  value (main (init [])) =
    Ok [[6; 5; 4; 3; 2; 1]; [3; 5; 7]; [1; 2; 3; 4; 5]; [1; 3; 3; 5; 5]].
Proof. vm_compute. reflexivity. Qed.

(** C4. For every vector [l], predicate and mutator, the filtered
    [for_each] keeps the length, replaces the element at every offset
    whose value before the call satisfies the predicate by the mutator's
    result and leaves every other offset as it was; the mutator is called
    exactly once on each of those offsets, in increasing order, and each
    call follows at once the predicate call that selected its element. *)
Theorem for_each_filtered_spec (l : list Z) (pred : Z → bool) (f : Z → Z) :
  ∃ s', for_each_filtered pred f (init l) = Ok ((), s') ∧
        length (elems s') = length l ∧
        (∀ i, elems s' !! i = (λ x, if pred x then f x else x) <$> l !! i) ∧
        mutator_calls (trace s') =
          List.filter (λ ix, pred ix.2) (enumerate 0 l) ∧
        trace s' = visit_trace pred 0 l.
Proof.
  eexists. split; [apply for_each_filtered_run|]. simpl.
  split; [by rewrite length_map|].
  split; [|split; [apply mutator_calls_visit | done]].
  intros i. apply (list_lookup_fmap (updated pred f)).
Qed.

(** C8. On an empty vector the filtered [for_each] changes nothing and
    calls neither the mutator nor the predicate.  When no element
    satisfies the predicate (for instance the predicate that is always
    false) the vector is left as it was, the mutator is never called, and
    the predicate is called once on each element, in order. *)
Theorem for_each_nothing_to_do (l : list Z) (pred : Z → bool) (f : Z → Z) :
  (∃ s', for_each_filtered pred f (init []) = Ok ((), s') ∧
         elems s' = [] ∧ trace s' = []) ∧
  (Forall (λ x, pred x = false) l →
   ∃ s', for_each_filtered pred f (init l) = Ok ((), s') ∧
         elems s' = l ∧ mutator_calls (trace s') = [] ∧
         predicate_calls (trace s') = enumerate 0 l) ∧
  (∃ s', for_each_filtered (λ _, false) f (init l) = Ok ((), s') ∧
         elems s' = l ∧ mutator_calls (trace s') = [] ∧
         predicate_calls (trace s') = enumerate 0 l).
Proof.
  assert (∀ p, Forall (λ x, p x = false) l →
    ∃ s', for_each_filtered p f (init l) = Ok ((), s') ∧
          elems s' = l ∧ mutator_calls (trace s') = [] ∧
          predicate_calls (trace s') = enumerate 0 l) as Hno.
  { intros p Hp. eexists. split; [apply for_each_filtered_run|]. simpl.
    split; [by apply no_match_updated|].
    split; [|apply predicate_calls_visit].
    rewrite mutator_calls_visit. clear -Hp. generalize 0%nat.
    induction Hp as [|x l' Hx _ IH]; intros i; simpl; [done|].
    by rewrite Hx. }
  split; [|split].
  - eexists. split; [apply for_each_filtered_run|]. by simpl.
  - apply Hno.
  - apply Hno. by apply Forall_forall.
Qed.

Lemma for_each_nothing_to_do_witness :
  ∃ s', for_each_filtered even add_one (init [1; 3; 5]) = Ok ((), s') ∧
        elems s' = [1; 3; 5] ∧ mutator_calls (trace s') = [] ∧
        predicate_calls (trace s') = [(0%nat, 1); (1%nat, 3); (2%nat, 5)].
Proof.
  destruct (for_each_nothing_to_do [1; 3; 5] even add_one) as (_ & H & _).
  apply H. repeat constructor.
Defined.

Lemma even_Z_even i : even i = Z.even i.
Proof.
  rewrite even_is_even. apply eq_true_iff_eq.
  by rewrite is_even_Even, Z.even_spec.
Qed.

Lemma updated_add_one l :
  Forall int_range l →
  map (updated even add_one) l = map (λ x, if Z.even x then x + 1 else x) l ∧
  Forall int_range (map (updated even add_one) l).
Proof.
  induction 1 as [|x l Hx _ [IHm IHr]]; simpl; [done|].
  assert (updated even add_one x = (if Z.even x then x + 1 else x) ∧
          int_range (updated even add_one x)) as [Ex Hr].
  { unfold updated. rewrite <- even_Z_even.
    destruct (even x) eqn:He; [|done].
    by destruct (add_one_even x Hx He) as [-> Hr]. }
  split; [by rewrite Ex, IHm | by constructor].
Qed.

(** C9. After the filtered [for_each] with "is even" and "increment by 1"
    every element of the vector is odd, whatever integers it held: the
    vector keeps its length, every element that was even has been
    replaced by its increment, which is odd, and every element that was
    odd is as it was.  On a vector of [int]s the increment is the element
    plus one. *)
Theorem for_each_even_all_odd (l : list Z) :
  ∃ s', for_each_filtered even add_one (init l) = Ok ((), s') ∧
        elems s' = map (λ x, if even x then add_one x else x) l ∧
        length (elems s') = length l ∧
        Forall Z.Odd (elems s') ∧
        (Forall int_range l →
         elems s' = map (λ x, if Z.even x then x + 1 else x) l).
Proof.
  eexists. split; [apply for_each_filtered_run|]. simpl.
  split; [reflexivity|]. split; [apply length_map|]. split.
  - induction l as [|x l IH]; simpl; constructor; [|exact IH].
    unfold updated. destruct (even x) eqn:Hx.
    + apply add_one_Odd. by rewrite <- is_even_Even, <- even_is_even.
    + destruct (Z.Even_or_Odd x) as [He|]; [|done].
      rewrite <- is_even_Even, <- even_is_even in He. congruence.
  - intros Hl. by destruct (updated_add_one l Hl) as [E _].
Qed.

Lemma for_each_even_all_odd_witness :
  ∃ s', for_each_filtered even add_one (init [-4; -1; 0; 7; 10]) =
          Ok ((), s') ∧
        elems s' = [-3; -1; 1; 7; 11].
Proof.
  destruct (for_each_even_all_odd [-4; -1; 0; 7; 10])
    as (s' & E & _ & _ & _ & H).
  exists s'. split; [exact E|]. apply H.
  repeat constructor; unfold int_range, int_min, int_max; simpl; lia.
Defined.

(** ** [show] over a vector *)

Lemma show_loop_vector n : ∀ it s,
  (it ≤ length (elems s))%nat →
  (length (elems s) - it ≤ n)%nat →
  show_loop n TheVector it (length (elems s)) s = Ok (drop it (elems s), s).
Proof.
  induction n as [|n IH]; intros it s Hit Hn.
  - assert (it = length (elems s)) as -> by lia.
    by rewrite show_loop_done, drop_all.
  - destruct (decide (it = length (elems s))) as [-> | Hne].
    { by rewrite show_loop_done, drop_all. }
    destruct (lookup_lt_is_Some_2 (elems s) it) as [x Hx]; [lia|].
    rewrite show_loop_step by done.
    unfold mbind at 1 2 3, M_bind at 1 2 3.
    rewrite (deref_vector _ _ _ Hx), next_vector, IH by lia.
    by rewrite (drop_S _ _ _ Hx).
Qed.

Lemma show_vector_run s : show TheVector s = Ok (elems s, s).
Proof.
  unfold show. unfold mbind at 1 2, M_bind at 1 2.
  change (begin_ TheVector s) with (Ok (0%nat, s)). cbn iota beta.
  rewrite end_vector. unfold distance.
  by rewrite show_loop_vector by lia.
Qed.

(** X1. [show] applied to a vector streams exactly the elements of the
    vector, first to last, each once, and changes nothing: the vector is as
    before and no user-supplied function has been called. *)
Theorem show_vector (s : machine) : show TheVector s = Ok (elems s, s).
Proof. apply show_vector_run. Qed.

(** ** The text of a line *)

Lemma string_length_app s1 s2 :
  String.length (s1 +:+ s2) = (String.length s1 + String.length s2)%nat.
Proof.
  induction s1 as [|a s1 IH]; [done|].
  change (String a s1 +:+ s2) with (String a (s1 +:+ s2)).
  simpl. by rewrite IH.
Qed.

Lemma blanks_length n : String.length (blanks n) = n.
Proof. induction n as [|n IH]; simpl; [done | by rewrite IH]. Qed.

(** A field is as wide as asked for, or as wide as its text when that is
    wider. *)
Lemma setw_length w text :
  String.length (setw w text) = Nat.max w (String.length text).
Proof. unfold setw. rewrite string_length_app, blanks_length. lia. Qed.

(** The text loop streams the formatted values of the value loop. *)
Lemma show_text_loop_values {R} `{Range R} n (c : R) : ∀ it last s,
  show_text_loop n c it last s =
    (vs ← show_loop n c it last;
     mret (foldr (λ v rest, setw 2 (decimal v) +:+ rest) "" vs)) s.
Proof.
  induction n as [|n IH]; intros it last s; simpl;
    destruct (it =? last)%nat; try reflexivity.
  unfold mbind, M_bind.
  destruct (deref c it s) as [[v s1]| |]; [|done..].
  destruct (next c it s1) as [[it' s2]| |]; [|done..].
  rewrite IH. unfold mbind, M_bind.
  by destruct (show_loop n c it' last s2) as [[vs s3]| |].
Qed.

(** [show] writes the formatted line of the values it iterates over. *)
Lemma show_text_values {R} `{Range R} (c : R) s :
  show_text c s = (vs ← show c; mret (format_line vs)) s.
Proof.
  unfold show_text, show, mbind, M_bind.
  destruct (begin_ c s) as [[it s1]| |]; [|done..].
  destruct (end_ c s1) as [[last s2]| |]; [|done..].
  rewrite show_text_loop_values. unfold mbind, M_bind.
  by destruct (show_loop _ c it last s2) as [[vs s3]| |].
Qed.

Lemma string_app_assoc s1 s2 s3 : (s1 +:+ s2) +:+ s3 = s1 +:+ (s2 +:+ s3).
Proof.
  induction s1 as [|a s1 IH]; [done|].
  change (String a s1 +:+ s2) with (String a (s1 +:+ s2)).
  change (String a (s1 +:+ s2) +:+ s3) with (String a ((s1 +:+ s2) +:+ s3)).
  by rewrite IH.
Qed.

Lemma format_line_nil : format_line [] = endl.
Proof. reflexivity. Qed.

Lemma format_line_cons v vs :
  format_line (v :: vs) = setw 2 (decimal v) +:+ format_line vs.
Proof. unfold format_line. simpl foldr. apply string_app_assoc. Qed.

Lemma format_line_length_ge vs :
  (2 * length vs + 1 ≤ String.length (format_line vs))%nat.
Proof.
  induction vs as [|v vs IH]; [done|].
  rewrite format_line_cons, string_length_app, setw_length. simpl length. lia.
Qed.

(** The values from -9 to 99, checked one by one: each of them fills
    exactly two columns, and no two of them are written alike. *)
Lemma two_columns_checked :
  forallb (λ v, (String.length (setw 2 (decimal v)) =? 2)%nat)
    (seqZ (-9) 109) = true ∧
  forallb (λ v,
      forallb (λ w,
          implb (String.eqb (setw 2 (decimal v)) (setw 2 (decimal w)))
            (v =? w))
        (seqZ (-9) 109))
    (seqZ (-9) 109) = true.
Proof. split; vm_compute; reflexivity. Qed.

Lemma two_columns_elem v : two_columns v → In v (seqZ (-9) 109).
Proof.
  unfold two_columns. intros Hv. apply list_elem_of_In, elem_of_seqZ. lia.
Qed.

Lemma field_length v :
  two_columns v → String.length (setw 2 (decimal v)) = 2%nat.
Proof.
  intros Hv. destruct two_columns_checked as [Hlen _].
  rewrite forallb_forall in Hlen.
  by apply Nat.eqb_eq, Hlen, two_columns_elem.
Qed.

Lemma field_inj v w :
  two_columns v → two_columns w →
  setw 2 (decimal v) = setw 2 (decimal w) → v = w.
Proof.
  intros Hv Hw E. destruct two_columns_checked as [_ Hinj].
  rewrite forallb_forall in Hinj.
  specialize (Hinj v (two_columns_elem v Hv)).
  rewrite forallb_forall in Hinj.
  specialize (Hinj w (two_columns_elem w Hw)).
  rewrite E, String.eqb_refl in Hinj. simpl in Hinj. by apply Z.eqb_eq.
Qed.

Lemma format_line_length_eq vs :
  Forall two_columns vs →
  String.length (format_line vs) = (2 * length vs + 1)%nat.
Proof.
  induction 1 as [|v vs Hv _ IH]; [done|].
  rewrite format_line_cons, string_length_app, field_length, IH by done.
  simpl length. lia.
Qed.

(** Two-column fields in front of equal lines are equal, and so are the
    rests of the lines. *)
Lemma field_split a b r1 r2 :
  String.length a = 2%nat → String.length b = 2%nat →
  a +:+ r1 = b +:+ r2 → a = b ∧ r1 = r2.
Proof.
  destruct a as [|a1 [|a2 [|? ?]]]; try done.
  destruct b as [|b1 [|b2 [|? ?]]]; try done.
  intros _ _ E.
  change (String a1 (String a2 r1) = String b1 (String b2 r2)) in E.
  by injection E as -> -> ->.
Qed.

Lemma format_line_inj l1 : ∀ l2,
  Forall two_columns l1 → Forall two_columns l2 →
  format_line l1 = format_line l2 → l1 = l2.
Proof.
  induction l1 as [|v l1 IH]; intros [|w l2] H1 H2 E.
  - done.
  - pose proof (format_line_length_ge (w :: l2)) as Hge.
    rewrite <- E in Hge. simpl in Hge. lia.
  - pose proof (format_line_length_ge (v :: l1)) as Hge.
    rewrite E in Hge. simpl in Hge. lia.
  - inversion H1 as [|? ? Hv H1']; inversion H2 as [|? ? Hw H2']; subst.
    rewrite !format_line_cons in E.
    apply field_split in E as [Ef Er]; [|by apply field_length..].
    f_equal; [by apply field_inj | by apply IH].
Qed.

Lemma show_text_vector s :
  show_text TheVector s = Ok (format_line (elems s), s).
Proof.
  rewrite show_text_values. unfold mbind, M_bind. by rewrite show_vector_run.
Qed.

(** X2. The line [show] writes for a vector ends with the newline and
    gives every element at least two columns: it is at least
    [2 * size + 1] characters long, and exactly that long when every
    element lies between -9 and 99. *)
Theorem show_text_width (s : machine) :
  ∃ line, show_text TheVector s = Ok (line, s) ∧
          (2 * length (elems s) + 1 ≤ String.length line)%nat ∧
          (Forall two_columns (elems s) →
           String.length line = (2 * length (elems s) + 1)%nat).
Proof.
  exists (format_line (elems s)). split; [apply show_text_vector|].
  split; [apply format_line_length_ge | apply format_line_length_eq].
Qed.

Lemma show_text_width_witness :
  ∃ line, show_text TheVector (init [6; 5; 4; 3; 2; 1]) =
            Ok (line, init [6; 5; 4; 3; 2; 1]) ∧
          String.length line = 13%nat.
Proof.
  destruct (show_text_width (init [6; 5; 4; 3; 2; 1])) as (line & E & _ & H).
  exists line. split; [exact E|]. apply H.
  repeat constructor; unfold two_columns; simpl; lia.
Defined.

(** The line [main] writes for [results] reads as its comment says
    ([// Output: 3 5 7]), each value right-aligned in its two columns. *)
Example results_line :
  value ((results ← build_pipeline is_even increment; show_text results)
           (init numbers)) = Ok (" 3 5 7" +:+ endl).
Proof. vm_compute. reflexivity. Qed.

(** X3. For vectors whose elements all lie between -9 and 99, the line
    [show] writes determines the vector: equal lines come from equal
    vectors. *)
Theorem show_text_injective (s1 s2 : machine) :
  Forall two_columns (elems s1) →
  Forall two_columns (elems s2) →
  value (show_text TheVector s1) = value (show_text TheVector s2) →
  elems s1 = elems s2.
Proof.
  intros H1 H2. rewrite !show_text_vector. simpl. intros [= E].
  by apply format_line_inj.
Qed.

Lemma show_text_injective_witness :
  elems (init [6; 5; 4; 3; 2; 1]) =
    elems {| elems := [6; 5; 4; 3; 2; 1]; cached_begin := Some 0%nat;
             trace := [CallPred 0 6] |}.
Proof.
  apply show_text_injective.
  - repeat constructor; unfold two_columns; simpl; lia.
  - repeat constructor; unfold two_columns; simpl; lia.
  - vm_compute. reflexivity.
Defined.

(** X4. Outside that range the line does not determine the vector: wider
    elements are written in full without a separator, so different
    vectors can give the same line. *)
Theorem show_text_ambiguous :
  ∃ l1 l2 : list Z,
    l1 ≠ l2 ∧
    value (show_text TheVector (init l1)) =
      value (show_text TheVector (init l2)).
Proof. exists [12; 34], [1234]. split; [discriminate | by vm_compute]. Qed.

(** ** The calls a consumption of the pipeline makes *)

Lemma bind_run {A B} (m : M A) (k : A → M B) s a s' :
  m s = Ok (a, s') → (m ≫= k) s = k a s'.
Proof. intros E. unfold mbind, M_bind. by rewrite E. Qed.

Lemma ret_run {A} (a : A) s : (mret a : M A) s = Ok (a, s).
Proof. reflexivity. Qed.

Lemma log_run e s : log e s = Ok ((), logged s [e]).
Proof. reflexivity. Qed.

Lemma logged_nil s : logged s [] = s.
Proof. destruct s. unfold logged. simpl. by rewrite app_nil_r. Qed.

Lemma logged_logged s t1 t2 : logged (logged s t1) t2 = logged s (t1 ++ t2).
Proof. unfold logged. simpl. by rewrite app_assoc. Qed.

Lemma function_calls_app t1 t2 :
  function_calls (t1 ++ t2) = function_calls t1 ++ function_calls t2.
Proof. apply omap_app. Qed.

Lemma predicate_calls_app t1 t2 :
  predicate_calls (t1 ++ t2) = predicate_calls t1 ++ predicate_calls t2.
Proof. apply omap_app. Qed.

Lemma function_calls_pred i x t :
  function_calls (CallPred i x :: t) = function_calls t.
Proof. reflexivity. Qed.

Lemma predicate_calls_pred i x t :
  predicate_calls (CallPred i x :: t) = (i, x) :: predicate_calls t.
Proof. reflexivity. Qed.

Lemma enumerate_app l1 l2 : ∀ i,
  enumerate i (l1 ++ l2) = enumerate i l1 ++ enumerate (i + length l1) l2.
Proof.
  induction l1 as [|x l1 IH]; intros i; simpl.
  - by rewrite Nat.add_0_r.
  - by rewrite IH, Nat.add_succ_r.
Qed.

Lemma enumerate_length l : ∀ i, length (enumerate i l) = length l.
Proof. induction l as [|x l IH]; intros i; simpl; [done | by rewrite IH]. Qed.

Lemma enumerate_lookup l : ∀ i k,
  enumerate i l !! k = (λ x, ((i + k)%nat, x)) <$> l !! k.
Proof.
  induction l as [|x l IH]; intros i [|k]; simpl; try done.
  - by rewrite Nat.add_0_r.
  - by rewrite IH, Nat.add_succ_r.
Qed.

Lemma descending_nil l a : descending l a a = [].
Proof.
  unfold descending. rewrite drop_ge; [done|]. rewrite length_take. lia.
Qed.

Lemma descending_S l a k y :
  l !! k = Some y → (a ≤ k)%nat →
  descending l a (S k) = (k, y) :: descending l a k.
Proof.
  intros Hk Ha. unfold descending.
  assert (enumerate 0 l !! k = Some (k, y)) as HE
    by (by rewrite enumerate_lookup, Hk).
  rewrite (take_S_r _ _ _ HE), drop_app_le, rev_app_distr; [done|].
  apply lookup_lt_Some in HE. rewrite length_take. lia.
Qed.

Lemma descending_split l e j it :
  (e ≤ j)%nat → (j ≤ it)%nat → (it ≤ length l)%nat →
  descending l e it = descending l j it ++ descending l e j.
Proof.
  intros He. induction it as [|k IH]; intros Hj Hit.
  - assert (j = 0%nat) as -> by lia. by rewrite descending_nil.
  - destruct (decide (j = S k)) as [-> | Hne].
    { by rewrite descending_nil. }
    destruct (lookup_lt_is_Some_2 l k) as [y Hk]; [lia|].
    rewrite !(descending_S _ _ _ _ Hk) by lia.
    rewrite IH by lia. done.
Qed.

Section pipeline_call_proofs.
Variables (pred : Z → bool) (f : Z → Z).

Lemma prev_match_matching l it : ∀ j x,
  prev_match pred l it = Some j → l !! j = Some x →
  matching pred (take it l) = matching pred (take j l) ++ [(j, x)].
Proof.
  unfold matching.
  induction it as [|k IH]; intros j x; simpl prev_match; [done|].
  destruct (l !! k) as [y|] eqn:Hk; [|done].
  rewrite (take_S_r _ _ _ Hk), enumerate_app, List.filter_app.
  rewrite length_take_le by (apply lookup_lt_Some in Hk; lia).
  simpl. destruct (pred y) eqn:Hy.
  - intros [= <-] Hx. by simplify_eq.
  - intros Hj Hx. by rewrite app_nil_r, (IH j x).
Qed.

(** Between a position and the match before it there is no other match. *)
Lemma prev_match_descending l it : ∀ j,
  prev_match pred l it = Some j →
  ∃ seg x, descending l j it = seg ++ [(j, x)] ∧ pred x = true ∧
           Forall (λ ix, pred ix.2 = false) seg.
Proof.
  induction it as [|k IH]; intros j Hj; [done|].
  pose proof (prev_match_Some _ _ _ _ Hj) as [Hlt _].
  simpl in Hj. destruct (l !! k) as [y|] eqn:Hk; [|done].
  destruct (pred y) eqn:Hy.
  - injection Hj as <-. exists [], y.
    rewrite (descending_S _ _ _ _ Hk), descending_nil by lia.
    repeat split; [done | constructor].
  - pose proof (prev_match_Some _ _ _ _ Hj) as [Hlt' _].
    destruct (IH j Hj) as (seg & x & E & Hx & Hseg).
    exists ((k, y) :: seg), x.
    rewrite (descending_S _ _ _ _ Hk), E by lia.
    repeat split; [done | by constructor].
Qed.

Lemma doubled_stretches_stretch seg : ∀ acc jx rest,
  Forall (λ ix, pred ix.2 = false) seg → pred jx.2 = true →
  doubled_stretches pred acc (seg ++ jx :: rest) =
    (acc ++ seg ++ [jx]) ++ (acc ++ seg ++ [jx])
      ++ doubled_stretches pred [] rest.
Proof.
  induction seg as [|ix seg IH]; intros acc jx rest Hseg Hjx; simpl.
  - by rewrite Hjx.
  - inversion Hseg as [|? ? Hix Hseg']; subst. rewrite Hix.
    rewrite IH by done. rewrite <- !app_assoc. simpl.
    by rewrite <- ?app_assoc.
Qed.

Lemma scan_trace_calls l : ∀ i,
  function_calls (scan_trace pred i l) = [] ∧
  predicate_calls (scan_trace pred i l) =
    enumerate i (take (S (first_match pred l)) l) ∧
  length (predicate_calls (scan_trace pred i l)) =
    Nat.min (S (first_match pred l)) (length l).
Proof.
  induction l as [|x l IH]; intros i; [done|].
  specialize (IH (S i)) as (IHf & IHe & IHp).
  change (scan_trace pred i (x :: l))
    with (CallPred i x :: if pred x then [] else scan_trace pred (S i) l).
  change (first_match pred (x :: l))
    with (if pred x then 0 else S (first_match pred l))%nat.
  rewrite function_calls_pred, predicate_calls_pred. cbn [length].
  destruct (pred x).
  - split; [done|]. split; [reflexivity | simpl; lia].
  - rewrite IHf, IHp, IHe. split; [done|]. split; [reflexivity | lia].
Qed.

(** [--it] on the filter view calls the predicate once on every element
    it steps over, the one it stops at included, going down. *)
Lemma filter_prev_vector_calls it : ∀ n s j,
  prev_match pred (elems s) it = Some j →
  (it ≤ n)%nat →
  ∃ t, filter_prev_loop n TheVector pred it s = Ok (j, logged s t) ∧
       function_calls t = [] ∧
       predicate_calls t = descending (elems s) j it ∧
       length (predicate_calls t) = (it - j)%nat.
Proof.
  induction it as [|k IH]; intros n s j Hj Hn; [done|].
  pose proof (prev_match_Some _ _ _ _ Hj) as [Hlt _].
  simpl in Hj. destruct (elems s !! k) as [y|] eqn:Hk; [|done].
  destruct n as [|n]; [lia|].
  rewrite filter_prev_loop_step.
  unfold mbind at 1 2 3, M_bind at 1 2 3. rewrite prev_vector_S.
  rewrite (deref_vector _ _ y) by done.
  unfold log at 1. fold (logged s [CallPred k y]).
  rewrite (descending_S _ _ _ _ Hk) by lia.
  destruct (pred y) eqn:Hy.
  - injection Hj as <-. exists [CallPred k y]. rewrite descending_nil.
    split; [done|]. split; [done|]. split; [done|]. simpl. lia.
  - destruct (IH n (logged s [CallPred k y]) j)
      as (t & E & Hf & He & Hp); [done | lia |].
    pose proof (prev_match_Some _ _ _ _ Hj) as [Hlt' _].
    exists (CallPred k y :: t). rewrite E, logged_logged.
    split; [done|]. split; [done|].
    split; [by rewrite predicate_calls_pred, He|].
    simpl. rewrite Hp. lia.
Qed.

(** One round of the range-based [for] over the pipeline: [*it] steps back
    to the previous match and calls [f] on it, [++it] steps back again. *)
Lemma pipeline_round_calls it s j x :
  prev_match pred (elems s) it = Some j →
  elems s !! j = Some x →
  ∃ t1 t2,
    deref (pipeline pred f) it s = Ok (f x, logged s t1) ∧
    next (pipeline pred f) it (logged s t1) = Ok (j, logged s (t1 ++ t2)) ∧
    function_calls (t1 ++ t2) = [(j, x)] ∧
    predicate_calls (t1 ++ t2) =
      descending (elems s) j it ++ descending (elems s) j it ∧
    length (predicate_calls (t1 ++ t2)) = (2 * (it - j))%nat.
Proof.
  intros Hj Hx.
  change (deref (pipeline pred f) it)
    with (tmp ← filter_prev_loop (S it) TheVector pred it;
          x ← deref TheVector tmp;
          log (CallFun tmp x);;
          mret (f x)).
  change (next (pipeline pred f) it)
    with (filter_prev_loop (S it) TheVector pred it).
  destruct (filter_prev_vector_calls it (S it) s j)
    as (t1 & E1 & Hf1 & He1 & Hp1); [done | lia |].
  destruct (filter_prev_vector_calls it (S it)
              (logged s (t1 ++ [CallFun j x])) j)
    as (t2 & E2 & Hf2 & He2 & Hp2); [done | lia |].
  simpl elems in He2.
  exists (t1 ++ [CallFun j x]), t2. split; [|split].
  - rewrite (bind_run _ _ _ _ _ E1).
    rewrite (bind_run _ _ _ x (logged s t1)) by (by apply deref_vector).
    rewrite (bind_run _ _ _ _ _ (log_run _ _)).
    by rewrite ret_run, logged_logged.
  - by rewrite E2, logged_logged.
  - rewrite !function_calls_app, !predicate_calls_app, !length_app.
    rewrite Hf1, Hf2, Hp1, Hp2, He1, He2.
    split; [done|]. split; [simpl; by rewrite app_nil_r | simpl; lia].
Qed.

Lemma first_match_matching l : matching pred (take (first_match pred l) l) = [].
Proof.
  unfold matching. generalize 0%nat.
  induction l as [|x l IH]; intros i; simpl; [done|].
  destruct (pred x) eqn:Hx; simpl; [done|]. by rewrite Hx.
Qed.

Lemma pipeline_show_loop_calls n : ∀ it s,
  (first_match pred (elems s) ≤ it ≤ length (elems s))%nat →
  (it - first_match pred (elems s) ≤ n)%nat →
  ∃ t, show_loop n (pipeline pred f) it (first_match pred (elems s)) s =
         Ok (rev (map f (List.filter pred (take it (elems s)))),
             logged s t) ∧
       function_calls t = rev (matching pred (take it (elems s))) ∧
       predicate_calls t =
         doubled_stretches pred []
           (descending (elems s) (first_match pred (elems s)) it) ∧
       length (predicate_calls t) =
         (2 * (it - first_match pred (elems s)))%nat.
Proof.
  induction n as [|n IH]; intros it s Hit Hn.
  - assert (it = first_match pred (elems s)) as -> by lia.
    exists []. rewrite show_loop_done, first_match_take, first_match_matching.
    rewrite logged_nil, Nat.sub_diag, descending_nil. done.
  - destruct (decide (it = first_match pred (elems s))) as [-> | Hne].
    { exists [].
      rewrite show_loop_done, first_match_take, first_match_matching.
      rewrite logged_nil, Nat.sub_diag, descending_nil. done. }
    rewrite show_loop_step by done.
    destruct (first_match_lookup pred (elems s)) as (y & Hy & Hpy); [lia|].
    destruct (prev_match_exists pred (elems s) it
                (first_match pred (elems s)) y) as [j Hj];
      [lia | done.. |].
    destruct (prev_match_Some _ _ _ _ Hj) as (Hlt & x & Hx & Hpx & Efilter).
    pose proof (first_match_least pred _ _ _ Hx Hpx) as Hle.
    destruct (prev_match_descending _ _ _ Hj) as (seg & x' & Eseg & Hpx' & Hseg).
    destruct (pipeline_round_calls it s j x)
      as (t1 & t2 & E1 & E2 & Hf & He & Hp); [done..|].
    destruct (IH j (logged s (t1 ++ t2))) as (t3 & E3 & Hf3 & He3 & Hp3);
      [simpl; lia..|].
    simpl elems in E3, Hf3, He3, Hp3.
    exists ((t1 ++ t2) ++ t3). split; [|split; [|split]].
    + rewrite (bind_run _ _ _ _ _ E1), (bind_run _ _ _ _ _ E2).
      rewrite (bind_run _ _ _ _ _ E3), ret_run, logged_logged.
      by rewrite Efilter, map_app, rev_app_distr.
    + rewrite function_calls_app, Hf, Hf3.
      by rewrite (prev_match_matching _ _ _ _ Hj Hx), rev_app_distr.
    + rewrite predicate_calls_app, He, He3.
      rewrite (descending_split (elems s) (first_match pred (elems s)) j it)
        by lia.
      rewrite Eseg.
      set (D := descending (elems s) (first_match pred (elems s)) j).
      replace ((seg ++ [(j, x')]) ++ D) with (seg ++ (j, x') :: D)
        by (by rewrite <- app_assoc).
      rewrite (doubled_stretches_stretch seg [] (j, x')) by done.
      simpl. by rewrite <- !app_assoc.
    + rewrite predicate_calls_app, length_app, Hp, Hp3. lia.
Qed.

(** Consuming the pipeline from a state whose filter view has not been
    iterated yet: [begin()] searches forward to the first match, the
    backward walk then looks at every element from the last one down to
    that match twice. *)
Lemma pipeline_show_calls s :
  cached_begin s = None →
  ∃ t, show (pipeline pred f) s =
         Ok (rev (map f (List.filter pred (elems s))),
             {| elems := elems s;
                cached_begin := Some (first_match pred (elems s));
                trace := trace s ++ t |}) ∧
       function_calls t = rev (matching pred (elems s)) ∧
       predicate_calls t =
         enumerate 0 (take (S (first_match pred (elems s))) (elems s))
         ++ doubled_stretches pred []
              (rev (drop (first_match pred (elems s))
                      (enumerate 0 (elems s)))) ∧
       length (predicate_calls t) =
         (Nat.min (S (first_match pred (elems s))) (length (elems s))
          + 2 * (length (elems s) - first_match pred (elems s)))%nat.
Proof.
  intros Hc. unfold show.
  change (begin_ (pipeline pred f)) with (end_ TheVector).
  change (end_ (pipeline pred f)) with (begin_ (FilterView TheVector pred)).
  rewrite (bind_run _ _ _ _ _ (end_vector s)).
  rewrite (bind_run _ _ _ _ _ (filter_begin_fresh pred s Hc)).
  set (e := first_match pred (elems s)). set (n := length (elems s)).
  set (s1 := {| elems := elems s; cached_begin := Some e;
                trace := trace s ++ scan_trace pred 0 (elems s) |}).
  destruct (pipeline_show_loop_calls (distance n e) n s1)
    as (t & E & Hf & He & Hp).
  { simpl. fold e n. split; [apply first_match_le | done]. }
  { simpl. fold e n. unfold distance. lia. }
  simpl elems in E, Hf, He, Hp. fold e n in E, Hf, He, Hp. rewrite E.
  destruct (scan_trace_calls (elems s) 0%nat) as (Hfs & Hes & Hps).
  exists (scan_trace pred 0 (elems s) ++ t). split; [|split; [|split]].
  - unfold n. rewrite firstn_all. unfold logged, s1. simpl.
    by rewrite app_assoc.
  - rewrite function_calls_app, Hfs, Hf. unfold n. by rewrite firstn_all.
  - rewrite predicate_calls_app, Hes, He. fold e. f_equal.
    unfold descending, n.
    by rewrite take_ge by (by rewrite enumerate_length).
  - rewrite predicate_calls_app, length_app, Hps, Hp. done.
Qed.
End pipeline_call_proofs.

(** X5. What one consumption of a freshly built pipeline calls: the
    function of [transform] exactly once on every element that satisfies
    the predicate, last match first, and on no other element.  The
    predicate is called first, for [begin()], once on every element from
    the start up to and including the first match, in order; then the
    backward walk goes from the last element down to the first match and
    calls it on every stretch that ends with a match twice in a row (once
    for [*it], once for [++it]).  Every call sees the element's value;
    with [n] elements and the first match at offset [e] that makes
    [min (e + 1) n + 2 * (n - e)] calls. *)
Theorem pipeline_calls (l : list Z) (pred : Z → bool) (f : Z → Z) :
  ∃ out s', consume pred f (init l) = Ok (out, s') ∧
    function_calls (trace s') =
      rev (List.filter (λ ix, pred ix.2) (enumerate 0 l)) ∧
    predicate_calls (trace s') =
      enumerate 0 (take (S (first_match pred l)) l)
      ++ doubled_stretches pred []
           (rev (drop (first_match pred l) (enumerate 0 l))) ∧
    length (predicate_calls (trace s')) =
      (Nat.min (S (first_match pred l)) (length l)
       + 2 * (length l - first_match pred l))%nat.
Proof.
  unfold consume, build_pipeline.
  destruct (pipeline_show_calls pred f (init l)) as (t & E & Hf & He & Hp);
    [done|].
  do 2 eexists. split; [exact E|]. by repeat split.
Qed.

(** The predicate calls of [main]'s pipeline over [numbers]. *)
Example numbers_predicate_calls :
  enumerate 0 (take (S (first_match is_even numbers)) numbers)
  ++ doubled_stretches is_even []
       (rev (drop (first_match is_even numbers) (enumerate 0 numbers))) =
  [(0%nat, 6); (5%nat, 1); (4%nat, 2); (5%nat, 1); (4%nat, 2);
   (3%nat, 3); (2%nat, 4); (3%nat, 3); (2%nat, 4);
   (1%nat, 5); (0%nat, 6); (1%nat, 5); (0%nat, 6)].
Proof. reflexivity. Qed.

(** ** The filtered [for_each], from any state *)

Lemma for_each_filtered_run_from pred f s :
  for_each_filtered pred f s =
    Ok ((), {| elems := map (updated pred f) (elems s);
               cached_begin := Some (first_match pred (elems s));
               trace := trace s ++ visit_trace pred 0 (elems s) |}).
Proof.
  destruct s as [l c t]. unfold for_each_filtered, for_each.
  rewrite (bind_run _ _ _ () {| elems := l; cached_begin := None;
                                trace := t |}) by done.
  rewrite (bind_run _ _ _ _ _
             (filter_begin_fresh pred
                {| elems := l; cached_begin := None; trace := t |} eq_refl)).
  rewrite (bind_run _ _ _ _ _ (filter_end_vector pred _)).
  cbn [elems cached_begin trace].
  destruct (first_match_cases pred l)
    as [[E Hn] | (pre & x & suf & -> & E & Hn & Hx)]; rewrite E.
  - rewrite for_each_loop_done. unfold mret, M_ret.
    by rewrite no_match_updated, no_match_scan_trace.
  - rewrite (for_each_loop_match pred f pre x suf) by split_lengths.
    simpl. rewrite scan_trace_first_match by done.
    rewrite visit_trace_app, map_app. simpl.
    rewrite Hx, (updated_true _ _ _ Hx), (no_match_updated _ _ pre) by done.
    by rewrite <- !app_assoc.
Qed.

Lemma mutator_calls_app t1 t2 :
  mutator_calls (t1 ++ t2) = mutator_calls t1 ++ mutator_calls t2.
Proof. apply omap_app. Qed.

Lemma no_match_mutator_calls pred l : ∀ i,
  no_match pred l → mutator_calls (visit_trace pred i l) = [].
Proof.
  intros i Hno. rewrite mutator_calls_visit. revert i.
  induction Hno as [|x l Hx _ IH]; intros i; simpl; [done|].
  by rewrite Hx.
Qed.

(** X6. The filtered [for_each] calls the predicate exactly once on every
    element of the vector, first to last, whether it matches or not, and
    each call sees the value the element had before the traversal. *)
Theorem for_each_predicate_calls (l : list Z) (pred : Z → bool) (f : Z → Z) :
  ∃ s', for_each_filtered pred f (init l) = Ok ((), s') ∧
        predicate_calls (trace s') = enumerate 0 l.
Proof.
  eexists. split; [apply for_each_filtered_run|]. simpl.
  apply predicate_calls_visit.
Qed.

(** ** No overflow *)

(** X7. On a vector of [int]s the traversal of [use_for_each] never
    overflows: every even element becomes the element plus one, every
    odd element stays, and all results are [int]s again. *)
Theorem for_each_no_overflow (l : list Z) :
  Forall int_range l →
  contents (for_each_filtered even add_one (init l)) =
    Ok (map (λ x, if Z.even x then x + 1 else x) l) ∧
  Forall int_range (map (λ x, if Z.even x then x + 1 else x) l).
Proof.
  intros Hl. rewrite for_each_filtered_run. simpl.
  destruct (updated_add_one l Hl) as [E Hr]. rewrite <- E. by split.
Qed.

Lemma for_each_no_overflow_witness :
  contents (for_each_filtered even add_one
              (init [int_min; -1; 0; int_max - 1; int_max])) =
    Ok [int_min + 1; -1; 1; int_max; int_max].
Proof.
  apply (for_each_no_overflow [int_min; -1; 0; int_max - 1; int_max]).
  repeat constructor; unfold int_range, int_min, int_max; simpl; lia.
Defined.

Lemma increment_is_even l :
  Forall int_range l →
  map increment (List.filter is_even l) =
    map (λ x, x + 1) (List.filter Z.even l) ∧
  Forall (λ y, int_range y ∧ Z.Odd y)
    (map (λ x, x + 1) (List.filter Z.even l)).
Proof.
  induction 1 as [|x l Hx _ [IHm IHr]]; simpl; [done|].
  rewrite <- even_Z_even, <- even_is_even.
  destruct (even x) eqn:He; simpl; [|done].
  destruct (add_one_even x Hx He) as [Ea Hr].
  rewrite IHm. split.
  - f_equal. exact Ea.
  - constructor; [|done]. split; [done|].
    rewrite <- Ea. apply add_one_Odd.
    by rewrite <- is_even_Even, <- even_is_even.
Qed.

(** X8. On a vector of [int]s the pipeline of [main] never overflows: it
    yields the even elements plus one, last one first, and every value it
    yields is an odd [int]. *)
Theorem pipeline_no_overflow (l : list Z) :
  Forall int_range l →
  value (consume is_even increment (init l)) =
    Ok (rev (map (λ x, x + 1) (List.filter Z.even l))) ∧
  Forall (λ y, int_range y ∧ Z.Odd y)
    (rev (map (λ x, x + 1) (List.filter Z.even l))).
Proof.
  intros Hl. destruct (increment_is_even l Hl) as [E Hr].
  destruct (consume_run is_even increment (init l)) as (s' & Erun & _).
  rewrite Erun. simpl. rewrite E. split; [done|].
  by apply List.Forall_rev.
Qed.

Lemma pipeline_no_overflow_witness :
  value (consume is_even increment
           (init [int_min; -1; 0; int_max - 1; int_max])) =
    Ok [int_max; 1; int_min + 1].
Proof.
  apply (pipeline_no_overflow [int_min; -1; 0; int_max - 1; int_max]).
  repeat constructor; unfold int_range, int_min, int_max; simpl; lia.
Defined.

(** ** Running the traversal again *)

Lemma updated_add_one_no_match l :
  no_match even (map (updated even add_one) l).
Proof.
  induction l as [|x l IH]; simpl; constructor; [|exact IH].
  rewrite even_Z_even, <- Z.negb_odd, negb_false_iff, Z.odd_spec.
  unfold updated. destruct (even x) eqn:Hx.
  - apply add_one_Odd. by rewrite <- is_even_Even, <- even_is_even.
  - destruct (Z.Even_or_Odd x) as [He|]; [|done].
    rewrite <- is_even_Even, <- even_is_even in He. congruence.
Qed.

(** X9. Running the traversal of [use_for_each] a second time changes
    nothing, whatever the vector held at first: the second pass finds no
    even element, calls the mutator not once and leaves the vector as the
    first pass left it. *)
Theorem for_each_second_pass (l : list Z) :
  ∃ s1 s2,
    for_each_filtered even add_one (init l) = Ok ((), s1) ∧
    for_each_twice even add_one (init l) = Ok ((), s2) ∧
    elems s2 = elems s1 ∧
    mutator_calls (trace s2) = mutator_calls (trace s1).
Proof.
  pose proof (updated_add_one_no_match l) as Hno.
  do 2 eexists. split; [apply for_each_filtered_run|].
  split; [|split].
  - unfold for_each_twice.
    rewrite (bind_run _ _ _ _ _ (for_each_filtered_run even add_one l)).
    apply for_each_filtered_run_from.
  - simpl. by apply no_match_updated.
  - simpl. rewrite mutator_calls_app.
    rewrite (no_match_mutator_calls _ _ _ Hno). apply app_nil_r.
Qed.

(** ** Consuming again after a change *)

Lemma build_pipeline_run pred f s :
  build_pipeline pred f s =
    Ok (pipeline pred f,
        {| elems := elems s; cached_begin := None; trace := trace s |}).
Proof. reflexivity. Qed.

Lemma modify_run g s :
  modify g s =
    Ok ((), {| elems := g (elems s); cached_begin := cached_begin s;
               trace := trace s |}).
Proof. reflexivity. Qed.

(** X10. A pipeline object that has been consumed can be consumed again
    after the vector was changed, with the right result, provided the
    change leaves the first element that satisfies the predicate at the
    same offset (or leaves none in either vector): the second pass then
    yields the filter-transform-reverse of the changed vector. *)
Theorem pipeline_reuse (l : list Z) (g : list Z → list Z)
    (pred : Z → bool) (f : Z → Z) :
  first_match pred (g l) = first_match pred l →
  value (consume_modify_consume g pred f (init l)) =
    Ok (rev (map f (List.filter pred l)),
        rev (map f (List.filter pred (g l)))).
Proof.
  intros Hfirst. unfold consume_modify_consume.
  rewrite (bind_run _ _ _ _ _ (build_pipeline_run pred f (init l))).
  destruct (pipeline_show pred f (init l)) as (s1 & E1 & El1 & Ec1);
    [by left|].
  simpl in E1, El1, Ec1. rewrite (bind_run _ _ _ _ _ E1).
  rewrite (bind_run _ _ _ _ _ (modify_run g s1)).
  destruct (pipeline_show pred f
              {| elems := g (elems s1); cached_begin := cached_begin s1;
                 trace := trace s1 |}) as (s2 & E2 & _).
  { right. simpl. by rewrite Ec1, El1, Hfirst. }
  simpl in E2. rewrite (bind_run _ _ _ _ _ E2). simpl. by rewrite El1.
Qed.

Lemma pipeline_reuse_witness :
  value (consume_modify_consume (λ _, [3; 6; 8; 10]) is_even increment
           (init [1; 2; 4])) = Ok ([5; 3], [11; 9; 7]).
Proof.
  apply (pipeline_reuse [1; 2; 4] (λ _, [3; 6; 8; 10]) is_even increment).
  reflexivity.
Defined.

(** Without that proviso the second pass can go wrong in both ways: it
    can stop short of a new first match ([cached_begin_not_refreshed]),
    and when the cached offset no longer holds a match the backward walk
    steps down past the start of the vector. *)
Example stale_begin_leaves_range :
  value (consume_modify_consume (λ _, [2; 1; 1]) is_even increment
           (init [1; 2; 4])) = Undefined.
Proof. vm_compute. reflexivity. Qed.
